(** * MemoContent/Table.tsx: the table renderer of the memo content view

    The component [Table] of [web/src/components/MemoContent/Table.tsx] turns
    the header and the rows of a parsed markdown table into a tree of React
    elements: a [<thead>] holding one [<tr>] of [<th>] cells and a [<tbody>]
    holding one [<tr>] of [<td>] cells per row; every cell wraps one
    [<Renderer>] element that carries the cell's node, an [index] prop and
    a [key].

    A JSX expression only builds element objects, it does not call the
    component named in it, so the value returned by [Table] is modelled as
    the element tree itself, with the props and keys the source writes. *)

From Stdlib Require Import Ascii DecimalString DecimalNat.
From stdpp Require Import base list strings gmap.

Local Open Scope string_scope.
Local Open Scope list_scope.
Local Open Scope nat_scope.

(** ** JavaScript primitives used by the component *)

(** [String(i)] on an array position: the decimal numeral of [i], without
    sign and without leading zeros. *)
Definition js_String (i : nat) : string :=
  NilEmpty.string_of_uint (Nat.to_uint i).

(** [arr.map((x, i) => f x i)]: the callback receives the element and then
    its position, the results are collected in array order. *)
Definition Array_map {A B : Type} (f : A → nat → B) (arr : list A) : list B :=
  imap (λ i x, f x i) arr.

(** A React key: [key={v}] stores ['' + v], an element written without a
    key has none. *)
Definition Key := option string.

(** Occurrence of a character in a string. *)
Fixpoint occurs (c : ascii) (s : string) : bool :=
  match s with
  | EmptyString => false
  | String c' s' => if decide (c' = c) then true else occurs c s'
  end.

Section TableComponent.

(** The generated protobuf module [@/types/proto/api/v1/markdown_service]
    is not part of the sources at hand: the type of nodes is a parameter,
    together with the text its [type] field yields inside a template
    literal. *)
Variable Node : Type.
Variable node_type : Node → string.

(** [TableNode_Row]: the component only reads [row.cells]. *)
Record TableNode_Row : Type := mkRow { cells : list Node }.

(** [interface Props] *)
Record Props : Type := mkProps {
  index : string;
  header : list Node;
  rows : list TableNode_Row
}.

(** [<Renderer key=... index=... node=... />] *)
Record RendererElement : Type := mkRenderer {
  renderer_key : Key;
  renderer_index : string;
  renderer_node : Node
}.

(** [<th key=... className=...>] and [<td key=... className=...>], each
    with its single child. *)
Record CellElement : Type := mkCell {
  cell_tag : string;
  cell_key : Key;
  cell_className : string;
  cell_child : RendererElement
}.

(** [<tr key=... className=...>] with its cells. *)
Record RowElement : Type := mkTr {
  tr_key : Key;
  tr_className : string;
  tr_children : list CellElement
}.

(** [<thead className=...>] and [<tbody className=...>] with their rows. *)
Record GroupElement : Type := mkGroup {
  group_tag : string;
  group_className : string;
  group_children : list RowElement
}.

(** [<table className=...>] with its two groups. *)
Record TableElement : Type := mkTable {
  table_className : string;
  table_thead : GroupElement;
  table_tbody : GroupElement
}.

(** *** The JSX literals

    Each takes the values of the expressions in braces; [ty] stands for
    the text of [h.type] or [r.type] inside the key's template literal. *)

(** [<th key={i} className="py-1 px-2">
       <Renderer key={`${h.type}-${i}`} index={String(i)} node={h} />
     </th>] *)
Definition th_element (ty : string) (h : Node) (i : nat) : CellElement :=
  {| cell_tag := "th";
     cell_key := Some (js_String i);
     cell_className := "py-1 px-2";
     cell_child :=
       {| renderer_key := Some (ty +:+ "-" +:+ js_String i);
          renderer_index := js_String i;
          renderer_node := h |} |}.

(** [<td key={j} className="py-1 px-2">
       <Renderer key={`${r.type}-${i}-${j}`} index={String(j)} node={r} />
     </td>] *)
Definition td_element (ty : string) (i : nat) (r : Node) (j : nat) : CellElement :=
  {| cell_tag := "td";
     cell_key := Some (js_String j);
     cell_className := "py-1 px-2";
     cell_child :=
       {| renderer_key :=
            Some (ty +:+ "-" +:+ js_String i +:+ "-" +:+ js_String j);
          renderer_index := js_String j;
          renderer_node := r |} |}.

(** [<tr className="divide-x ...">{ths}</tr>], the row of the header. *)
Definition header_tr_element (ths : list CellElement) : RowElement :=
  {| tr_key := None;
     tr_className := "divide-x divide-zinc-200 dark:divide-zinc-600";
     tr_children := ths |}.

(** [<tr key={i} className="divide-x ...">{tds}</tr>], a row of the body. *)
Definition tr_element (i : nat) (tds : list CellElement) : RowElement :=
  {| tr_key := Some (js_String i);
     tr_className := "divide-x divide-zinc-200 dark:divide-zinc-600";
     tr_children := tds |}.

(** [<table ...><thead ...><tr ...>{ths}</tr></thead><tbody ...>{trs}</tbody></table>] *)
Definition table_element (ths : list CellElement) (trs : list RowElement)
  : TableElement :=
  {| table_className :=
       "w-auto max-w-full border border-[var(--color-border)] divide-y divide-zinc-200 dark:divide-zinc-600";
     table_thead :=
       {| group_tag := "thead";
          group_className :=
            "text-sm font-medium leading-5 text-left text-[var(--color-foreground)]";
          group_children := [header_tr_element ths] |};
     table_tbody :=
       {| group_tag := "tbody";
          group_className :=
            "divide-y divide-zinc-200 dark:divide-zinc-600 text-sm leading-5 text-left text-[var(--color-foreground)]";
          group_children := trs |} |}.

(** *** The component *)

(** The header callback, [(h, i) => <th ...>]. *)
Definition header_cell (h : Node) (i : nat) : CellElement :=
  th_element (node_type h) h i.

(** The inner body callback, [(r, j) => <td ...>], inside the row at
    position [i]. *)
Definition body_cell (i : nat) (r : Node) (j : nat) : CellElement :=
  td_element (node_type r) i r j.

(** The outer body callback, [(row, i) => <tr key={i} ...>]. *)
Definition body_row (row : TableNode_Row) (i : nat) : RowElement :=
  tr_element i (Array_map (body_cell i) (cells row)).

(** [const Table = ({ header, rows }: Props) => ...]: only [header] and
    [rows] are taken out of the props. *)
Definition Table (props : Props) : TableElement :=
  let header := header props in
  let rows := rows props in
  table_element (Array_map header_cell header) (Array_map body_row rows).

(** *** Views on the rendered table *)

(** The rows of the header group and of the body group. *)
Definition header_group (t : TableElement) : list RowElement :=
  group_children (table_thead t).

Definition body_group (t : TableElement) : list RowElement :=
  group_children (table_tbody t).

(** The [Renderer] elements of one row, the [index] props they carry (the
    RenderIndex of each cell's node), the nodes they wrap and their keys. *)
Definition row_renderers (tr : RowElement) : list RendererElement :=
  cell_child <$> tr_children tr.

Definition row_indices (tr : RowElement) : list string :=
  renderer_index <$> row_renderers tr.

Definition row_nodes (tr : RowElement) : list Node :=
  renderer_node <$> row_renderers tr.

Definition row_cell_keys (tr : RowElement) : list Key :=
  cell_key <$> tr_children tr.

Definition row_renderer_keys (tr : RowElement) : list Key :=
  renderer_key <$> row_renderers tr.

(** Every [Renderer] element of the table, header row first, and the
    RenderIndex handed to each of them. *)
Definition all_renderers (t : TableElement) : list RendererElement :=
  (header_group t ≫= row_renderers) ++ (body_group t ≫= row_renderers).

Definition all_indices (t : TableElement) : list string :=
  renderer_index <$> all_renderers t.

End TableComponent.

Arguments mkRow {Node} _.
Arguments cells {Node} _.
Arguments mkProps {Node} _ _ _.
Arguments index {Node} _.
Arguments header {Node} _.
Arguments rows {Node} _.
Arguments mkRenderer {Node} _ _ _.
Arguments renderer_key {Node} _.
Arguments renderer_index {Node} _.
Arguments renderer_node {Node} _.
Arguments mkCell {Node} _ _ _ _.
Arguments cell_tag {Node} _.
Arguments cell_key {Node} _.
Arguments cell_className {Node} _.
Arguments cell_child {Node} _.
Arguments mkTr {Node} _ _ _.
Arguments tr_key {Node} _.
Arguments tr_className {Node} _.
Arguments tr_children {Node} _.
Arguments mkGroup {Node} _ _ _.
Arguments group_tag {Node} _.
Arguments group_className {Node} _.
Arguments group_children {Node} _.
Arguments mkTable {Node} _ _ _.
Arguments table_className {Node} _.
Arguments table_thead {Node} _.
Arguments table_tbody {Node} _.
Arguments th_element {Node} _ _ _.
Arguments td_element {Node} _ _ _ _.
Arguments header_tr_element {Node} _.
Arguments tr_element {Node} _ _.
Arguments table_element {Node} _ _.
Arguments header_cell {Node} _ _ _.
Arguments body_cell {Node} _ _ _ _.
Arguments body_row {Node} _ _ _.
Arguments Table {Node} _ _.
Arguments header_group {Node} _.
Arguments body_group {Node} _.
Arguments row_renderers {Node} _.
Arguments row_indices {Node} _.
Arguments row_nodes {Node} _.
Arguments row_cell_keys {Node} _.
Arguments row_renderer_keys {Node} _.
Arguments all_renderers {Node} _.
Arguments all_indices {Node} _.

(** ** A concrete node type for examples

    Nodes as pairs of a type tag and a text content. *)
Module Sample.

Definition node : Type := string * string.
Definition node_type (n : node) : string := n.1.
Definition text (s : string) : node := ("TEXT", s).

(** The ragged table of the specification: three header columns, a row of
    two cells and a row of four. *)
Definition ragged : Props node :=
  mkProps "0"
    [text "A"; text "B"; text "C"]
    [mkRow [text "x"; text "y"];
     mkRow [text "1"; text "2"; text "3"; text "4"]].

(** One header column and two one-cell rows, all with the same content. *)
Definition twins : Props node :=
  mkProps "7" [text "v"] [mkRow [text "v"]; mkRow [text "v"]].

Definition empty (idx : string) : Props node := mkProps idx [] [].

(** Forgetting the content of a node, its type tag kept. *)
Definition erase (n : node) : node := (n.1, EmptyString).

End Sample.

(** ** Renaming the nodes of a table

    [g] applied to every node of the props, and to the [node] prop of every
    [Renderer] element of a rendered table, all else kept. *)

Definition Props_map {A B : Type} (g : A → B) (props : Props A) : Props B :=
  mkProps (index props) (g <$> header props)
    ((λ row, mkRow (g <$> cells row)) <$> rows props).

Definition RendererElement_map {A B : Type} (g : A → B)
    (re : RendererElement A) : RendererElement B :=
  mkRenderer (renderer_key re) (renderer_index re) (g (renderer_node re)).

Definition CellElement_map {A B : Type} (g : A → B)
    (c : CellElement A) : CellElement B :=
  mkCell (cell_tag c) (cell_key c) (cell_className c)
    (RendererElement_map g (cell_child c)).

Definition RowElement_map {A B : Type} (g : A → B)
    (tr : RowElement A) : RowElement B :=
  mkTr (tr_key tr) (tr_className tr) (CellElement_map g <$> tr_children tr).

Definition GroupElement_map {A B : Type} (g : A → B)
    (gr : GroupElement A) : GroupElement B :=
  mkGroup (group_tag gr) (group_className gr)
    (RowElement_map g <$> group_children gr).

Definition TableElement_map {A B : Type} (g : A → B)
    (t : TableElement A) : TableElement B :=
  mkTable (table_className t) (GroupElement_map g (table_thead t))
    (GroupElement_map g (table_tbody t)).

(** The body cells of a table addressed by row and column: the key of the
    [Renderer] element of the cell at row [r], column [c]. *)
Definition body_renderer_key {Node : Type} (t : TableElement Node)
    (r c : nat) : option Key :=
  tr ← body_group t !! r; row_renderer_keys tr !! c.

(** The cell of the props at row [r], column [c]. *)
Definition body_node {Node : Type} (props : Props Node) (r c : nat)
  : option Node :=
  row ← rows props !! r; cells row !! c.

(** ** The component over a store

    At run time the props hold references: [header] and [rows] are arrays
    owned by the parsed document, their entries are node and row objects,
    and every [node={...}] prop of the output points to a node object of the
    input. This second embedding of [Table] makes the store explicit, so
    that what the component reads and writes can be stated. Elements are
    immutable once built and are kept as values. *)
Module Store.

Definition loc : Type := positive.

(** The objects the component can meet: a [Node] (its [type], as text,
    and the rest of its fields), a [TableNode_Row] (its [cells] array)
    and an array of references. *)
Inductive object : Type :=
| ObjNode (type : string) (payload : string)
| ObjRow (cells : loc)
| ObjArray (elems : list loc).

Abbreviation heap := (gmap loc object).

(** Computations over the store: a result, or none after a [TypeError],
    and the store they leave. *)
Definition M (A : Type) : Type := heap → option A * heap.

Global Instance M_ret : MRet M := λ A x σ, (Some x, σ).

Global Instance M_bind : MBind M := λ A B f m σ,
  match m σ with
  | (Some x, σ') => f x σ'
  | (None, σ') => (None, σ')
  end.

Definition throw {A : Type} : M A := λ σ, (None, σ).

Definition read (l : loc) : M object := λ σ, (σ !! l, σ).

Definition write (l : loc) (o : object) : M unit := λ σ, (Some (), <[l:=o]> σ).

(** [n.type] *)
Definition get_type (n : loc) : M string :=
  o ← read n;
  match o with ObjNode ty _ => mret ty | _ => throw end.

(** [row.cells] *)
Definition get_cells (row : loc) : M loc :=
  o ← read row;
  match o with ObjRow cs => mret cs | _ => throw end.

(** [arr.length] *)
Definition get_length (arr : loc) : M nat :=
  o ← read arr;
  match o with ObjArray es => mret (length es) | _ => throw end.

(** [arr[k]], none when [k] is not an index of the array. *)
Definition get_elem (arr : loc) (k : nat) : M (option loc) :=
  o ← read arr;
  match o with ObjArray es => mret (es !! k) | _ => throw end.

(** The loop of [Array.prototype.map] from position [k], for [n] more
    positions: the element is read from the store when its turn comes,
    the callback is run on it, and a position that is no index of the
    array any more is passed over. *)
Fixpoint map_from {B : Type} (arr : loc) (f : loc → nat → M B) (k n : nat)
  : M (list B) :=
  match n with
  | 0 => mret []
  | S n =>
      e ← get_elem arr k;
      match e with
      | Some x => y ← f x k; ys ← map_from arr f (S k) n; mret (y :: ys)
      | None => map_from arr f (S k) n
      end
  end.

(** [arr.map(f)]: the length is read once, before the loop. *)
Definition Array_map {B : Type} (arr : loc) (f : loc → nat → M B) : M (list B) :=
  len ← get_length arr;
  map_from arr f 0 len.

(** The props as the component receives them. *)
Record Props : Type := mkProps {
  index : string;
  header : loc;
  rows : loc
}.

(** [Table], reading the document through the store. The header cells are
    built before the body rows, as the JSX is evaluated left to right. *)
Definition Table (props : Props) : M (TableElement loc) :=
  let header := header props in
  let rows := rows props in
  ths ← Array_map header (λ h i,
           ty ← get_type h;
           mret (th_element ty h i));
  trs ← Array_map rows (λ row i,
           cs ← get_cells row;
           tds ← Array_map cs (λ r j,
                    ty ← get_type r;
                    mret (td_element ty i r j));
           mret (tr_element i tds));
  mret (table_element ths trs).

(** A computation that leaves every store as it found it. *)
Definition read_only {A : Type} (m : M A) : Prop := ∀ σ, (m σ).2 = σ.

(** The text of the [type] field of the node at [l]. *)
Definition type_at (σ : heap) (l : loc) : string :=
  match σ !! l with
  | Some (ObjNode ty _) => ty
  | _ => EmptyString
  end.

(** The store holds the document a value of the props describes. *)
Definition is_node (σ : heap) (l : loc) : Prop :=
  ∃ ty pl, σ !! l = Some (ObjNode ty pl).

Definition is_node_array (σ : heap) (arr : loc) (ns : list loc) : Prop :=
  σ !! arr = Some (ObjArray ns) ∧ Forall (is_node σ) ns.

Definition is_row (σ : heap) (l : loc) (row : TableNode_Row loc) : Prop :=
  ∃ cs, σ !! l = Some (ObjRow cs) ∧ is_node_array σ cs (cells row).

End Store.

(** The store holds the document that the props, taken as a value with
    references for nodes, describe. *)
Definition is_props (σ : Store.heap) (props : Store.Props)
    (vprops : Props Store.loc) : Prop :=
  Store.index props = index vprops
  ∧ Store.is_node_array σ (Store.header props) (header vprops)
  ∧ ∃ rls, σ !! Store.rows props = Some (Store.ObjArray rls)
         ∧ Forall2 (Store.is_row σ) rls (rows vprops).

(** A store holding the table with header [v] and the two rows [v] and [v]:
    the header array at 10, the row array at 11, the rows at 20 and 21 with
    their cell arrays at 30 and 31, and three nodes at 1, 2 and 3. *)
Module StoreSample.

Definition store0 : Store.heap :=
  list_to_map
    [ (1%positive, Store.ObjNode "TEXT" "v");
      (2%positive, Store.ObjNode "TEXT" "v");
      (3%positive, Store.ObjNode "TEXT" "v");
      (10%positive, Store.ObjArray [1%positive]);
      (11%positive, Store.ObjArray [20%positive; 21%positive]);
      (20%positive, Store.ObjRow 30%positive);
      (21%positive, Store.ObjRow 31%positive);
      (30%positive, Store.ObjArray [2%positive]);
      (31%positive, Store.ObjArray [3%positive]) ].

Definition props : Store.Props := Store.mkProps "7" 10%positive 11%positive.

(** The same table as a value: nodes are the references 1, 2 and 3. *)
Definition vprops : Props Store.loc :=
  mkProps "7" [1%positive] [mkRow [2%positive]; mkRow [3%positive]].

(** Another program appends node 3 to the header array. *)
Definition push_header : Store.M unit :=
  Store.write 10%positive (Store.ObjArray [1%positive; 3%positive]).

End StoreSample.

(** ** The node renderer

    [Renderer.tsx], the component that dispatches on the kind of a node and
    calls itself on the children, and the protobuf module that declares the
    nodes are not part of the sources at hand. *)
Module Markup.

#[local] Set Warnings "-register-all".

(** Modelled from the spec: the document tree of its data model, "a tagged
    union over a closed set of kinds (e.g., Text, Bold, Italic, Link,
    LineBreak, Table, and others)", where "Text carries content; Link
    carries target + child Nodes; Table carries header + rows". [Other]
    stands for the kinds the spec does not name. *)
Inductive Node : Type :=
| Text (content : string)
| LineBreak
| Bold (children : list Node)
| Italic (children : list Node)
| Link (target : string) (children : list Node)
| TableNode (header : list Node) (rows : list (TableNode_Row Node))
| Other (kind : string).

(** Modelled from the spec: the [kind] discriminant of a node, as text. *)
Definition node_type (n : Node) : string :=
  match n with
  | Text _ => "TEXT"
  | LineBreak => "LINE_BREAK"
  | Bold _ => "BOLD"
  | Italic _ => "ITALIC"
  | Link _ _ => "LINK"
  | TableNode _ _ => "TABLE"
  | Other k => k
  end.

(** Modelled from the spec: the rendered output, "a structural output tree
    whose shape mirrors input structure (one output per input node, table
    outputs exposing a distinct header-group and body-group), annotated
    with the RenderIndex-derived identifiers". *)
Inductive Output : Type :=
| OutNode (kind idx content : string) (children : list Output)
| OutTable (idx : string) (header_rows body_rows : list (list Output)).

(** Modelled from the spec: the index of the child at position [k] of a
    node rendered with index [p]: the parent's index, a dot, the position. *)
Definition child_index (p : string) (k : nat) : string :=
  p +:+ "." +:+ js_String k.

(** Modelled from the spec: [render(node, index)] of the node renderer. It
    selects the handler by the kind of the node; the kinds with child
    nodes call [render] on each child with the composed index; a table
    node is handed to [Table], the component of the sources, and every
    [Renderer] element of the table is then rendered with the node and the
    index it carries; a kind that is not recognised renders as an empty
    placeholder. [D] bounds the number of nested calls. *)
Fixpoint render (D : nat) (node : Node) (idx : string) : option Output :=
  match D with
  | 0 => None
  | S D =>
      let render_children (cs : list Node) : option (list Output) :=
        mapM id (Array_map (λ c k, render D c (child_index idx k)) cs) in
      let render_row (tr : RowElement Node) : option (list Output) :=
        mapM (λ re, render D (renderer_node re) (renderer_index re))
          (row_renderers tr) in
      match node with
      | Text c => Some (OutNode "TEXT" idx c [])
      | LineBreak => Some (OutNode "LINE_BREAK" idx EmptyString [])
      | Bold cs => OutNode "BOLD" idx EmptyString <$> render_children cs
      | Italic cs => OutNode "ITALIC" idx EmptyString <$> render_children cs
      | Link target cs => OutNode "LINK" idx target <$> render_children cs
      | TableNode hs rs =>
          let t := Table node_type (mkProps idx hs rs) in
          hg ← mapM render_row (header_group t);
          bg ← mapM render_row (body_group t);
          Some (OutTable idx hg bg)
      | Other k => Some (OutNode k idx EmptyString [])
      end
  end.

(** The depth of a tree, counted in nodes along the longest path. *)
Fixpoint depth (n : Node) : nat :=
  match n with
  | Text _ | LineBreak | Other _ => 1
  | Bold cs | Italic cs | Link _ cs => S (max_list (depth <$> cs))
  | TableNode hs rs =>
      S (max_list (depth <$> hs)
         `max` max_list ((λ row, max_list (depth <$> cells row)) <$> rs))
  end.

(** The number of nodes of a tree. *)
Fixpoint count_nodes (n : Node) : nat :=
  match n with
  | Text _ | LineBreak | Other _ => 1
  | Bold cs | Italic cs | Link _ cs => S (sum_list (count_nodes <$> cs))
  | TableNode hs rs =>
      S (sum_list (count_nodes <$> hs)
         + sum_list ((λ row, sum_list (count_nodes <$> cells row)) <$> rs))
  end.

(** The number of outputs of an output tree. *)
Fixpoint count_outputs (o : Output) : nat :=
  match o with
  | OutNode _ _ _ os => S (sum_list (count_outputs <$> os))
  | OutTable _ hg bg =>
      S (sum_list ((λ os, sum_list (count_outputs <$> os)) <$> hg)
         + sum_list ((λ os, sum_list (count_outputs <$> os)) <$> bg))
  end.

(** With bound [D], every tree of depth at most [D] is rendered, to as many
    outputs as it has nodes. *)
Definition renders_all (D : nat) : Prop :=
  ∀ node idx, depth node ≤ D →
    ∃ out, render D node idx = Some out ∧ count_outputs out = count_nodes node.

(** A link around a text, and a table with that link in a body cell. *)
Definition link : Node := Link "https://usememos.com" [Text "memos"].

Definition table : Node :=
  TableNode [Text "A"; Bold [Text "B"]]
    [mkRow [link]; mkRow [Text "1"; Other "FUTURE"; LineBreak]].

End Markup.

(** ** Examples on the sample tables *)

Example Table_ragged_indices :
  all_indices (Table Sample.node_type Sample.ragged)
  = ["0"; "1"; "2"; "0"; "1"; "0"; "1"; "2"; "3"].
Proof. reflexivity. Qed.

Example Table_ragged_keys :
  (row_renderer_keys <$> body_group (Table Sample.node_type Sample.ragged))
  = [[Some "TEXT-0-0"; Some "TEXT-0-1"];
     [Some "TEXT-1-0"; Some "TEXT-1-1"; Some "TEXT-1-2"; Some "TEXT-1-3"]].
Proof. reflexivity. Qed.

(** The ragged scenario of the specification: a header row of three cells,
    body rows of two and of four cells. *)
Example Table_ragged_lengths :
  (length ∘ tr_children) <$> header_group (Table Sample.node_type Sample.ragged)
  = [3]
  ∧ (length ∘ tr_children) <$> body_group (Table Sample.node_type Sample.ragged)
    = [2; 4].
Proof. split; reflexivity. Qed.

(** ** Numerals and keys *)

Lemma append_nil_l (s : string) : EmptyString +:+ s = s.
Proof. reflexivity. Qed.

Lemma append_cons (c : ascii) (s t : string) :
  String c s +:+ t = String c (s +:+ t).
Proof. reflexivity. Qed.

Lemma append_assoc (s t u : string) : (s +:+ t) +:+ u = s +:+ t +:+ u.
Proof.
  induction s as [|c s IH]; [done|].
  by rewrite !append_cons, IH.
Qed.

Lemma occurs_append (c : ascii) (s t : string) :
  occurs c (s +:+ t) = occurs c s || occurs c t.
Proof.
  induction s as [|c' s IH]; [done|].
  rewrite append_cons. simpl. by destruct (decide (c' = c)).
Qed.

Lemma occurs_dash_uint (d : Decimal.uint) :
  occurs "-" (NilEmpty.string_of_uint d) = false.
Proof. induction d; simpl; try done; by case_decide. Qed.

(** A numeral never contains the separator of the keys. *)
Lemma js_String_no_dash (i : nat) : occurs "-" (js_String i) = false.
Proof. apply occurs_dash_uint. Qed.

Lemma string_of_uint_inj (d d' : Decimal.uint) :
  NilEmpty.string_of_uint d = NilEmpty.string_of_uint d' → d = d'.
Proof.
  intros Heq. apply (inj Some).
  by rewrite <- (NilEmpty.usu d), <- (NilEmpty.usu d'), Heq.
Qed.

(** Distinct positions have distinct numerals. *)
Lemma js_String_inj (i j : nat) : js_String i = js_String j → i = j.
Proof.
  intros Heq. unfold js_String in Heq.
  by apply Unsigned.to_uint_inj, string_of_uint_inj.
Qed.

(** A string ending in ["-"] followed by a dash-free suffix determines both
    the suffix and what precedes the dash. *)
Lemma last_segment_inj (s s' d d' : string) :
  occurs "-" d = false → occurs "-" d' = false →
  s +:+ "-" +:+ d = s' +:+ "-" +:+ d' → s = s' ∧ d = d'.
Proof.
  intros Hd Hd'. revert s'.
  induction s as [|c s IH]; intros [|c' s'] Heq.
  - rewrite !append_nil_l in Heq. by simplify_eq.
  - rewrite append_nil_l, !append_cons in Heq.
    injection Heq as _ Heq. rewrite !append_nil_l in Heq. subst d.
    rewrite occurs_append in Hd. simpl in Hd.
    by rewrite orb_true_r in Hd.
  - rewrite append_nil_l, !append_cons in Heq.
    injection Heq as _ Heq. rewrite !append_nil_l in Heq. subst d'.
    rewrite occurs_append in Hd'. simpl in Hd'.
    by rewrite orb_true_r in Hd'.
  - rewrite !append_cons in Heq. injection Heq as -> Heq.
    destruct (IH _ Heq) as [-> ->]. done.
Qed.

(** Keys of the form [t-j], and hence [t-i-j], differ as soon as their last
    position differs, whatever the type tags are. *)
Lemma key_last_position (t t' : string) (j j' : nat) :
  t +:+ "-" +:+ js_String j = t' +:+ "-" +:+ js_String j' → t = t' ∧ j = j'.
Proof.
  intros Heq.
  apply last_segment_inj in Heq as [-> Hj]; auto using js_String_no_dash.
  by apply js_String_inj in Hj.
Qed.

Lemma body_key_split (t si sj : string) :
  t +:+ "-" +:+ si +:+ "-" +:+ sj = (t +:+ "-" +:+ si) +:+ "-" +:+ sj.
Proof. by rewrite !append_assoc. Qed.

Lemma body_key_positions (t t' : string) (i i' j j' : nat) :
  t +:+ "-" +:+ js_String i +:+ "-" +:+ js_String j
  = t' +:+ "-" +:+ js_String i' +:+ "-" +:+ js_String j' →
  t = t' ∧ i = i' ∧ j = j'.
Proof.
  rewrite !body_key_split. intros Heq.
  apply key_last_position in Heq as [Heq ->].
  by apply key_last_position in Heq as [-> ->].
Qed.

(** ** The shape of the rendered table *)

Section TableTheory.

Context {Node : Type} (node_type : Node → string).
Implicit Types (props : Props Node) (h r : Node) (row : TableNode_Row Node).

Lemma Array_map_length {A B} (f : A → nat → B) (arr : list A) :
  length (Array_map f arr) = length arr.
Proof. unfold Array_map. apply length_imap. Qed.

Lemma Array_map_lookup {A B} (f : A → nat → B) (arr : list A) (i : nat) :
  Array_map f arr !! i = (λ x, f x i) <$> arr !! i.
Proof. unfold Array_map. apply list_lookup_imap. Qed.

Lemma fmap_Array_map {A B C} (g : B → C) (f : A → nat → B) (arr : list A) :
  g <$> Array_map f arr = Array_map (λ x i, g (f x i)) arr.
Proof. unfold Array_map. apply fmap_imap. Qed.

Lemma Array_map_positions {A B} (g : nat → B) (arr : list A) :
  Array_map (λ _ i, g i) arr = g <$> seq 0 (length arr).
Proof. unfold Array_map. apply (imap_seq_0 arr g). Qed.

Lemma Array_map_elements {A B} (g : A → B) (arr : list A) :
  Array_map (λ x _, g x) arr = g <$> arr.
Proof. unfold Array_map. apply (imap_const g). Qed.

Lemma Array_map_ext {A B} (f g : A → nat → B) (arr : list A) :
  (∀ i x, arr !! i = Some x → f x i = g x i) → Array_map f arr = Array_map g arr.
Proof. intros Hfg. unfold Array_map. by apply imap_ext. Qed.

(** A list built by [map] whose entries determine their position has no
    duplicates. *)
Lemma Array_map_NoDup {A B} (f : A → nat → B) (arr : list A) :
  (∀ x y i j, f x i = f y j → i = j) → NoDup (Array_map f arr).
Proof.
  intros Hf. apply NoDup_alt. intros i j b.
  rewrite !Array_map_lookup, !fmap_Some.
  intros (x & _ & ->) (y & _ & Heq). eauto.
Qed.

Lemma header_group_Table props :
  header_group (Table node_type props)
  = [ mkTr None "divide-x divide-zinc-200 dark:divide-zinc-600"
        (Array_map (header_cell node_type) (header props)) ].
Proof. reflexivity. Qed.

Lemma body_group_Table props :
  body_group (Table node_type props)
  = Array_map (body_row node_type) (rows props).
Proof. reflexivity. Qed.

Lemma row_indices_header (hs : list Node) (k : Key) (cls : string) :
  row_indices (mkTr k cls (Array_map (header_cell node_type) hs))
  = js_String <$> seq 0 (length hs).
Proof.
  unfold row_indices, row_renderers. simpl.
  rewrite !fmap_Array_map. apply (Array_map_positions js_String).
Qed.

Lemma row_indices_body row (i : nat) :
  row_indices (body_row node_type row i)
  = js_String <$> seq 0 (length (cells row)).
Proof.
  unfold row_indices, row_renderers. simpl.
  rewrite !fmap_Array_map. apply (Array_map_positions js_String).
Qed.

Lemma row_nodes_header (hs : list Node) (k : Key) (cls : string) :
  row_nodes (mkTr k cls (Array_map (header_cell node_type) hs)) = hs.
Proof.
  unfold row_nodes, row_renderers. simpl.
  rewrite !fmap_Array_map.
  etrans; [apply (Array_map_elements id)|]. apply list_fmap_id.
Qed.

Lemma row_nodes_body row (i : nat) :
  row_nodes (body_row node_type row i) = cells row.
Proof.
  unfold row_nodes, row_renderers. simpl.
  rewrite !fmap_Array_map.
  etrans; [apply (Array_map_elements id)|]. apply list_fmap_id.
Qed.

(** The nodes of the rendered rows, group by group. *)
Lemma header_group_nodes props :
  row_nodes <$> header_group (Table node_type props) = [header props].
Proof. rewrite header_group_Table. simpl. by rewrite row_nodes_header. Qed.

Lemma body_group_nodes props :
  row_nodes <$> body_group (Table node_type props) = cells <$> rows props.
Proof.
  rewrite body_group_Table, fmap_Array_map.
  etrans; [|apply (Array_map_elements _)].
  apply Array_map_ext. intros i row _. apply row_nodes_body.
Qed.

Lemma js_String_seq_NoDup (n : nat) : NoDup (js_String <$> seq 0 n).
Proof.
  apply NoDup_fmap_2_strong; [|apply NoDup_seq].
  intros i j _ _. apply js_String_inj.
Qed.

End TableTheory.

Section TableProperties.

Context {Node : Type} (node_type : Node → string).
Implicit Types (props : Props Node) (h r n : Node) (row : TableNode_Row Node).

(** C3. The header group holds one row with as many cells as [header]
    has nodes, the body group holds as many rows as [rows], and every
    body row has exactly as many cells as its input row, whatever the
    number of header columns is; [Table] is a total function, so a
    ragged row cannot make it fail. *)
Theorem Table_group_lengths props :
  (length ∘ tr_children) <$> header_group (Table node_type props)
    = [length (header props)]
  ∧ length (body_group (Table node_type props)) = length (rows props)
  ∧ (length ∘ tr_children) <$> body_group (Table node_type props)
    = (length ∘ cells) <$> rows props.
Proof.
  rewrite header_group_Table, body_group_Table. split_and!.
  - simpl. by rewrite Array_map_length.
  - apply Array_map_length.
  - rewrite fmap_Array_map. etrans; [|apply (Array_map_elements _)].
    apply Array_map_ext. intros i row _. simpl. apply Array_map_length.
Qed.

(** C5. The nodes wrapped by the cells of the header row are the header
    nodes in input order, and the nodes wrapped by the cells of the body
    rows are, row by row and cell by cell, the cells of the input rows in
    input order: nothing is sorted, dropped or merged. *)
Theorem Table_order_preserving props :
  row_nodes <$> header_group (Table node_type props) = [header props]
  ∧ row_nodes <$> body_group (Table node_type props) = cells <$> rows props.
Proof. split; [apply header_group_nodes|apply body_group_nodes]. Qed.

(** C9. Two invocations that differ only in the [index] prop return the
    same element tree: the component never reads that prop. *)
Theorem Table_index_irrelevant (idx idx' : string)
    (hs : list Node) (rs : list (TableNode_Row Node)) :
  Table node_type (mkProps idx hs rs) = Table node_type (mkProps idx' hs rs).
Proof. reflexivity. Qed.

(** C10. Inside every rendered row, of the header or of the body, the
    keys of the cells are pairwise distinct and so are the keys of the
    [Renderer] elements they wrap, for arbitrary nodes and type tags. The
    key of a header cell is its column position [i] and the key of its
    [Renderer] is [type-i]; the key of a body cell is its column position
    [j] and the key of its [Renderer] is [type-i-j] with [i] the row
    position. *)
Theorem Table_row_keys_distinct props :
  Forall (λ tr, NoDup (row_cell_keys tr) ∧ NoDup (row_renderer_keys tr))
    (header_group (Table node_type props) ++ body_group (Table node_type props))
  ∧ row_renderer_keys <$> header_group (Table node_type props)
    = [Array_map (λ h i, Some (node_type h +:+ "-" +:+ js_String i))
         (header props)]
  ∧ row_renderer_keys <$> body_group (Table node_type props)
    = Array_map (λ row i,
        Array_map (λ r j,
          Some (node_type r +:+ "-" +:+ js_String i +:+ "-" +:+ js_String j))
          (cells row))
        (rows props).
Proof.
  rewrite header_group_Table, body_group_Table. split_and!.
  - apply Forall_app. split.
    + apply Forall_singleton.
      unfold row_cell_keys, row_renderer_keys, row_renderers. simpl.
      rewrite !fmap_Array_map. split; apply Array_map_NoDup; simpl.
      * intros _ _ i j [=]. by apply js_String_inj.
      * intros x y i j [=Heq]. by apply key_last_position in Heq as [_ ?].
    + apply Forall_forall. intros tr Htr.
      apply list_elem_of_lookup in Htr as [i Htr].
      rewrite Array_map_lookup, fmap_Some in Htr.
      destruct Htr as (row & _ & ->).
      unfold row_cell_keys, row_renderer_keys, row_renderers. simpl.
      rewrite !fmap_Array_map. split; apply Array_map_NoDup; simpl.
      * intros _ _ j j' [=]. by apply js_String_inj.
      * intros x y j j' [=Heq].
        by apply body_key_positions in Heq as (_ & _ & ?).
  - simpl. unfold row_renderer_keys, row_renderers. simpl.
    by rewrite !fmap_Array_map.
  - rewrite fmap_Array_map. apply Array_map_ext. intros i row _.
    unfold row_renderer_keys, row_renderers. simpl.
    by rewrite !fmap_Array_map.
Qed.

(** C1, as the code has it. Inside every rendered row, of the header or
    of the body, no two cells receive the same RenderIndex: the header
    cell at column [i] receives [String(i)] and the body cell at row [r],
    column [c] receives [String(c)], which depends on the column alone. *)
Theorem Table_indices_distinct_in_row props :
  Forall (λ tr, NoDup (row_indices tr))
    (header_group (Table node_type props) ++ body_group (Table node_type props))
  ∧ row_indices <$> header_group (Table node_type props)
    = [js_String <$> seq 0 (length (header props))]
  ∧ row_indices <$> body_group (Table node_type props)
    = (λ row, js_String <$> seq 0 (length (cells row))) <$> rows props.
Proof.
  assert (Hh : row_indices <$> header_group (Table node_type props)
               = [js_String <$> seq 0 (length (header props))]).
  { rewrite header_group_Table. simpl. by rewrite row_indices_header. }
  assert (Hb : row_indices <$> body_group (Table node_type props)
               = (λ row, js_String <$> seq 0 (length (cells row))) <$> rows props).
  { rewrite body_group_Table, fmap_Array_map.
    etrans; [|apply (Array_map_elements _)].
    apply Array_map_ext. intros i row _. apply row_indices_body. }
  split_and!; [|done..].
  apply (Forall_fmap row_indices (λ l, NoDup l)).
  rewrite fmap_app, Hh, Hb. apply Forall_app. split.
  - apply Forall_singleton, js_String_seq_NoDup.
  - apply Forall_fmap, Forall_true. intros row. apply js_String_seq_NoDup.
Qed.

(** C2, as the code has it. Whatever [index] the table itself was given,
    the [Renderer] of the header cell at position [i] receives the index
    [String(i)] and the [Renderer] of the body cell at row [r], column
    [c] receives the index [String(c)]; the parent's index is not part
    of either. *)
Theorem Table_child_indices_local props :
  (∀ (i : nat) h, header props !! i = Some h →
     ∃ tr, header_group (Table node_type props) = [tr]
         ∧ row_renderers tr !! i
           = Some (mkRenderer (Some (node_type h +:+ "-" +:+ js_String i))
                     (js_String i) h))
  ∧ (∀ (r : nat) row (c : nat) n,
       rows props !! r = Some row → cells row !! c = Some n →
       ∃ tr, body_group (Table node_type props) !! r = Some tr
           ∧ row_renderers tr !! c
             = Some (mkRenderer
                       (Some (node_type n +:+ "-" +:+ js_String r +:+ "-" +:+ js_String c))
                       (js_String c) n)).
Proof.
  split.
  - intros i h Hh. eexists. split; [apply header_group_Table|].
    unfold row_renderers. simpl.
    by rewrite list_lookup_fmap, Array_map_lookup, Hh.
  - intros r row c n Hr Hc. exists (body_row node_type row r). split.
    + by rewrite body_group_Table, Array_map_lookup, Hr.
    + unfold row_renderers. simpl.
      by rewrite list_lookup_fmap, Array_map_lookup, Hc.
Qed.

(** C4, as the code has it. The header group always holds exactly one
    row: for an empty header it is a row of zero cells. For an empty row
    list the body group is empty, no row is emitted. *)
Theorem Table_empty_groups (idx : string)
    (hs : list Node) (rs : list (TableNode_Row Node)) :
  header_group (Table node_type (mkProps idx [] rs))
    = [mkTr None "divide-x divide-zinc-200 dark:divide-zinc-600" []]
  ∧ body_group (Table node_type (mkProps idx hs [])) = []
  ∧ length (header_group (Table node_type (mkProps idx hs rs))) = 1.
Proof. done. Qed.

End TableProperties.

(** C1, refuted as stated. With one header column and two one-cell rows the
    three rendered nodes all receive the index ["0"]: the body cell of row
    0 collides with the header cell, and with the body cell of row 1. *)
Lemma Table_indices_collide :
  all_indices (Table Sample.node_type Sample.twins) = ["0"; "0"; "0"]
  ∧ ¬ NoDup (all_indices (Table Sample.node_type Sample.twins)).
Proof.
  split; [reflexivity|].
  intros Hnd. apply NoDup_cons in Hnd as [Hnotin _].
  apply Hnotin. left.
Qed.

(** C2, refuted as stated. A table rendered with index ["7"] hands the
    index ["0"] to its first header cell and to the first cell of each row,
    not ["7.0"]; and since tables rendered under different parent indices
    hand out the same child indices, no composition that tells parents
    apart describes them. *)
Lemma Table_index_not_composed :
  all_indices (Table Sample.node_type Sample.twins) ≠ ["7.0"; "7.0"; "7.0"]
  ∧ ¬ ∃ compose : string → nat → string,
        (∀ p p' k k', compose p k = compose p' k' → p = p' ∧ k = k')
        ∧ ∀ props : Props Sample.node,
            row_indices <$> header_group (Table Sample.node_type props)
            = [Array_map (λ _ k, compose (index props) k) (header props)].
Proof.
  split; [done|].
  intros (compose & Hinj & Hcomp).
  pose proof (Hcomp (mkProps "1" [Sample.text "v"] [])) as H1.
  pose proof (Hcomp (mkProps "2" [Sample.text "v"] [])) as H2.
  cbv in H1, H2. injection H1 as H1. injection H2 as H2.
  rewrite H1 in H2. by apply Hinj in H2 as [[=] _].
Qed.

(** Witness for C2 on the ragged table: header column 2, and cell 3 of body
    row 1. *)
Lemma Table_child_indices_local_witness :
  (∃ tr, header_group (Table Sample.node_type Sample.ragged) = [tr]
       ∧ row_renderers tr !! 2
         = Some (mkRenderer (Some "TEXT-2") "2" (Sample.text "C")))
  ∧ (∃ tr, body_group (Table Sample.node_type Sample.ragged) !! 1 = Some tr
       ∧ row_renderers tr !! 3
         = Some (mkRenderer (Some "TEXT-1-3") "3" (Sample.text "4"))).
Proof.
  split.
  - apply (proj1 (Table_child_indices_local Sample.node_type Sample.ragged)
             2 (Sample.text "C")).
    reflexivity.
  - apply (proj2 (Table_child_indices_local Sample.node_type Sample.ragged)
             1 (mkRow [Sample.text "1"; Sample.text "2"; Sample.text "3";
                       Sample.text "4"])
             3 (Sample.text "4")); reflexivity.
Defined.

(** C4, refuted as stated. For an empty header and no rows the header group
    is not empty: it holds one row, of zero cells. *)
Lemma Table_empty_header_emits_row :
  header_group (Table Sample.node_type (Sample.empty "0")) ≠ []
  ∧ (length ∘ tr_children) <$> header_group (Table Sample.node_type (Sample.empty "0"))
    = [0].
Proof. split; [discriminate|reflexivity]. Qed.

(** ** The component over a store: what it reads and what it leaves *)

Section StoreTheory.

Implicit Types (σ : Store.heap) (l arr : Store.loc).

Lemma run_ret {A} (x : A) σ : (mret x : Store.M A) σ = (Some x, σ).
Proof. reflexivity. Qed.

Lemma run_bind {A B} (m : Store.M A) (f : A → Store.M B) σ :
  (m ≫= f) σ
  = match m σ with
    | (Some x, σ') => f x σ'
    | (None, σ') => (None, σ')
    end.
Proof. reflexivity. Qed.

Lemma run_bind_Some {A B} (m : Store.M A) (f : A → Store.M B) σ σ' x :
  m σ = (Some x, σ') → (m ≫= f) σ = f x σ'.
Proof. intros Hm. by rewrite run_bind, Hm. Qed.

(** *** Read-only computations *)

Lemma read_only_ret {A} (x : A) : Store.read_only (mret x : Store.M A).
Proof. by intros σ. Qed.

Lemma read_only_throw {A} : Store.read_only (Store.throw : Store.M A).
Proof. by intros σ. Qed.

Lemma read_only_read l : Store.read_only (Store.read l).
Proof. by intros σ. Qed.

Lemma read_only_bind {A B} (m : Store.M A) (f : A → Store.M B) :
  Store.read_only m → (∀ x, Store.read_only (f x)) → Store.read_only (m ≫= f).
Proof.
  intros Hm Hf σ. rewrite run_bind.
  specialize (Hm σ). destruct (m σ) as [[x|] σ']; simpl in *; subst σ'.
  - apply Hf.
  - done.
Qed.

Lemma read_only_get_type l : Store.read_only (Store.get_type l).
Proof.
  apply read_only_bind; [apply read_only_read|].
  intros []; auto using read_only_ret, read_only_throw.
Qed.

Lemma read_only_get_cells l : Store.read_only (Store.get_cells l).
Proof.
  apply read_only_bind; [apply read_only_read|].
  intros []; auto using read_only_ret, read_only_throw.
Qed.

Lemma read_only_get_length arr : Store.read_only (Store.get_length arr).
Proof.
  apply read_only_bind; [apply read_only_read|].
  intros []; auto using read_only_ret, read_only_throw.
Qed.

Lemma read_only_get_elem arr k : Store.read_only (Store.get_elem arr k).
Proof.
  apply read_only_bind; [apply read_only_read|].
  intros []; auto using read_only_ret, read_only_throw.
Qed.

(** The loop of [map] writes nothing that its callback does not write. *)
Lemma read_only_map_from {B} arr (f : Store.loc → nat → Store.M B) k n :
  (∀ x i, Store.read_only (f x i)) → Store.read_only (Store.map_from arr f k n).
Proof.
  intros Hf. revert k. induction n as [|n IH]; intros k; simpl.
  - apply read_only_ret.
  - apply read_only_bind; [apply read_only_get_elem|].
    intros [x|]; [|apply IH].
    apply read_only_bind; [apply Hf|]. intros y.
    apply read_only_bind; [apply IH|]. intros ys. apply read_only_ret.
Qed.

Lemma read_only_Array_map {B} arr (f : Store.loc → nat → Store.M B) :
  (∀ x i, Store.read_only (f x i)) → Store.read_only (Store.Array_map arr f).
Proof.
  intros Hf. apply read_only_bind; [apply read_only_get_length|].
  intros len. by apply read_only_map_from.
Qed.

Lemma read_only_Table (props : Store.Props) : Store.read_only (Store.Table props).
Proof.
  unfold Store.Table.
  apply read_only_bind.
  { apply read_only_Array_map. intros h i.
    apply read_only_bind; [apply read_only_get_type|].
    intros ty. apply read_only_ret. }
  intros ths. apply read_only_bind.
  { apply read_only_Array_map. intros row i.
    apply read_only_bind; [apply read_only_get_cells|]. intros cs.
    apply read_only_bind.
    { apply read_only_Array_map. intros r j.
      apply read_only_bind; [apply read_only_get_type|].
      intros ty. apply read_only_ret. }
    intros tds. apply read_only_ret. }
  intros trs. apply read_only_ret.
Qed.

(** *** Agreement with the component on values *)

Lemma get_type_node σ l :
  Store.is_node σ l → Store.get_type l σ = (Some (Store.type_at σ l), σ).
Proof.
  intros (ty & pl & Hl). unfold Store.get_type, Store.type_at.
  rewrite run_bind. unfold Store.read. by rewrite Hl.
Qed.

Lemma get_cells_row σ l cs :
  σ !! l = Some (Store.ObjRow cs) → Store.get_cells l σ = (Some cs, σ).
Proof.
  intros Hl. unfold Store.get_cells.
  rewrite run_bind. unfold Store.read. by rewrite Hl.
Qed.

Lemma get_length_array σ arr es :
  σ !! arr = Some (Store.ObjArray es) →
  Store.get_length arr σ = (Some (length es), σ).
Proof.
  intros Harr. unfold Store.get_length.
  rewrite run_bind. unfold Store.read. by rewrite Harr.
Qed.

Lemma get_elem_array σ arr es k :
  σ !! arr = Some (Store.ObjArray es) →
  Store.get_elem arr k σ = (Some (es !! k), σ).
Proof.
  intros Harr. unfold Store.get_elem.
  rewrite run_bind. unfold Store.read. by rewrite Harr.
Qed.

(** On an array that the callback leaves alone, the loop visits the
    remaining elements in order, each with its position. *)
Lemma map_from_array {B} σ arr (f : Store.loc → nat → Store.M B)
    (g : Store.loc → nat → B) (pre suf : list Store.loc) :
  σ !! arr = Some (Store.ObjArray (pre ++ suf)) →
  (∀ i x, (pre ++ suf) !! i = Some x → f x i σ = (Some (g x i), σ)) →
  Store.map_from arr f (length pre) (length suf) σ
  = (Some (imap (λ i x, g x (length pre + i)) suf), σ).
Proof.
  intros Harr Hf. revert pre Harr Hf.
  induction suf as [|x suf IH]; intros pre Harr Hf; [done|].
  cbn [length Store.map_from].
  rewrite (run_bind_Some _ _ _ _ _ (get_elem_array _ _ _ _ Harr)).
  rewrite list_lookup_middle by done.
  assert (Hx : (pre ++ x :: suf) !! length pre = Some x)
    by by apply list_lookup_middle.
  rewrite (run_bind_Some _ _ _ _ _ (Hf _ _ Hx)).
  specialize (IH (pre ++ [x])).
  rewrite <- (assoc_L (++)), length_app in IH. simpl in IH.
  rewrite Nat.add_1_r in IH.
  rewrite (run_bind_Some _ _ _ _ _ (IH Harr Hf)).
  rewrite run_ret, imap_cons, Nat.add_0_r. do 3 f_equal.
  apply imap_ext. intros i y _. simpl. f_equal. lia.
Qed.

Lemma Array_map_array {B} σ arr (f : Store.loc → nat → Store.M B)
    (g : Store.loc → nat → B) (es : list Store.loc) :
  σ !! arr = Some (Store.ObjArray es) →
  (∀ i x, es !! i = Some x → f x i σ = (Some (g x i), σ)) →
  Store.Array_map arr f σ = (Some (Array_map g es), σ).
Proof.
  intros Harr Hf. unfold Store.Array_map.
  rewrite (run_bind_Some _ _ _ _ _ (get_length_array _ _ _ Harr)).
  apply (map_from_array σ arr f g [] es Harr Hf).
Qed.

Lemma Array_map_nodes {B} σ arr (ns : list Store.loc)
    (k : string → Store.loc → nat → B) :
  Store.is_node_array σ arr ns →
  Store.Array_map arr (λ n i, ty ← Store.get_type n; mret (k ty n i)) σ
  = (Some (Array_map (λ n i, k (Store.type_at σ n) n i) ns), σ).
Proof.
  intros [Harr Hns]. apply Array_map_array; [done|].
  intros i x Hx.
  assert (Hnode : Store.is_node σ x) by (eapply Forall_lookup_1; eauto).
  by rewrite (run_bind_Some _ _ _ _ _ (get_type_node _ _ Hnode)).
Qed.

(** On a store that holds the document, the component over the store
    returns what the component on values returns, with the references of
    the nodes in the [node] props. *)
Lemma Table_refines σ (props : Store.Props) (vprops : Props Store.loc) :
  is_props σ props vprops →
  Store.Table props σ = (Some (Table (Store.type_at σ) vprops), σ).
Proof.
  intros (_ & Hh & rls & Hrows & Hrls). unfold Store.Table.
  rewrite (run_bind_Some _ _ _ _ _ (Array_map_nodes _ _ _ th_element Hh)).
  erewrite run_bind_Some; [apply run_ret|].
  etrans.
  { apply (Array_map_array σ _ _
      (λ l i, tr_element i
         (Array_map (λ r j, td_element (Store.type_at σ r) i r j)
            (default [] (cells <$> rows vprops !! i)))) rls Hrows).
    intros i l Hl.
    destruct (Forall2_lookup_l _ _ _ _ _ Hrls Hl) as (row & Hrow & cs & Hl' & Hcs).
    rewrite (run_bind_Some _ _ _ _ _ (get_cells_row _ _ _ Hl')).
    rewrite (run_bind_Some _ _ _ _ _
      (Array_map_nodes _ _ _ (λ ty r j, td_element ty i r j) Hcs)).
    by rewrite Hrow. }
  do 2 f_equal. unfold Array_map.
  apply list_eq. intros i. rewrite !list_lookup_imap.
  destruct (rls !! i) as [l|] eqn:Hl.
  - destruct (Forall2_lookup_l _ _ _ _ _ Hrls Hl) as (row & Hrow & _).
    by rewrite Hrow.
  - apply lookup_ge_None in Hl.
    rewrite (Forall2_length _ _ _ Hrls) in Hl.
    apply lookup_ge_None in Hl. by rewrite Hl.
Qed.

End StoreTheory.

(** C8. Run on any store, the component leaves the store exactly as it
    found it: the header array, the rows, their cell arrays and the nodes
    are only read. *)
Theorem Table_leaves_store (props : Store.Props) (σ : Store.heap) :
  (Store.Table props σ).2 = σ.
Proof. apply read_only_Table. Qed.

(** C6. Two renders in a row, the second on the store the first one left,
    return the same result, and the store is still the initial one. *)
Theorem Table_render_twice (props : Store.Props) (σ : Store.heap) :
  let (out1, σ1) := Store.Table props σ in
  let (out2, σ2) := Store.Table props σ1 in
  out1 = out2 ∧ σ2 = σ.
Proof.
  pose proof (read_only_Table props σ) as H1.
  destruct (Store.Table props σ) as [out1 σ1] eqn:Heq. simpl in H1. subst σ1.
  by rewrite Heq.
Qed.

(** The sample store holds the sample document, and rendering it yields the
    table of the component on values. *)
Example StoreSample_is_props :
  is_props StoreSample.store0 StoreSample.props StoreSample.vprops.
Proof.
  split; [done|]. split.
  - split; [done|]. repeat constructor. by exists "TEXT", "v".
  - exists [20%positive; 21%positive]. split; [done|].
    repeat constructor.
    + exists 30%positive. split; [done|]. split; [done|].
      repeat constructor. by exists "TEXT", "v".
    + exists 31%positive. split; [done|]. split; [done|].
      repeat constructor. by exists "TEXT", "v".
Qed.

Example StoreSample_render :
  Store.Table StoreSample.props StoreSample.store0
  = (Some (Table (Store.type_at StoreSample.store0) StoreSample.vprops),
     StoreSample.store0).
Proof. apply Table_refines, StoreSample_is_props. Qed.

Example StoreSample_render_indices :
  all_indices <$> (Store.Table StoreSample.props StoreSample.store0).1
  = Some ["0"; "0"; "0"].
Proof. vm_compute. reflexivity. Qed.

(** With a mutation of the document between the two renders the outputs
    differ. *)
Example StoreSample_render_after_push :
  (Store.Table StoreSample.props (StoreSample.push_header StoreSample.store0).2).1
  ≠ (Store.Table StoreSample.props StoreSample.store0).1.
Proof. vm_compute. discriminate. Qed.

(** ** One output per node *)

Section OneRendererPerCell.

Context {Node : Type} (node_type : Node → string).

Lemma renderer_nodes_bind (trs : list (RowElement Node)) :
  renderer_node <$> (trs ≫= row_renderers) = mjoin (row_nodes <$> trs).
Proof.
  induction trs as [|tr trs IH]; [done|].
  cbn. by rewrite fmap_app, IH.
Qed.

(** The nodes wrapped by the [Renderer] elements of the table are the
    header nodes followed by the cells of the rows, each exactly once. *)
Lemma Table_renderer_nodes (props : Props Node) :
  renderer_node <$> all_renderers (Table node_type props)
  = header props ++ mjoin (cells <$> rows props).
Proof.
  unfold all_renderers.
  rewrite fmap_app, !renderer_nodes_bind.
  rewrite header_group_nodes, body_group_nodes.
  simpl. by rewrite app_nil_r.
Qed.

Lemma Table_renderer_count (props : Props Node) :
  length (all_renderers (Table node_type props))
  = length (header props) + sum_list ((length ∘ cells) <$> rows props).
Proof.
  rewrite <- (length_fmap renderer_node), Table_renderer_nodes.
  by rewrite length_app, length_join, <- list_fmap_compose.
Qed.

End OneRendererPerCell.

Section RenderTheory.

Import Markup.

Lemma render_S D node idx :
  render (S D) node idx
  = match node with
    | Text c => Some (OutNode "TEXT" idx c [])
    | LineBreak => Some (OutNode "LINE_BREAK" idx EmptyString [])
    | Bold cs =>
        OutNode "BOLD" idx EmptyString <$>
          mapM id (Array_map (λ c k, render D c (child_index idx k)) cs)
    | Italic cs =>
        OutNode "ITALIC" idx EmptyString <$>
          mapM id (Array_map (λ c k, render D c (child_index idx k)) cs)
    | Link target cs =>
        OutNode "LINK" idx target <$>
          mapM id (Array_map (λ c k, render D c (child_index idx k)) cs)
    | TableNode hs rs =>
        let render_row (tr : RowElement Node) :=
          mapM (λ re, render D (renderer_node re) (renderer_index re))
            (row_renderers tr) in
        let t := Table node_type (mkProps idx hs rs) in
        hg ← mapM render_row (header_group t);
        bg ← mapM render_row (body_group t);
        Some (OutTable idx hg bg)
    | Other k => Some (OutNode k idx EmptyString [])
    end.
Proof. reflexivity. Qed.

Lemma sum_list_cons (n : nat) (l : list nat) :
  sum_list (n :: l) = n + sum_list l.
Proof. reflexivity. Qed.

Lemma max_list_cons (n : nat) (l : list nat) :
  max_list (n :: l) = n `max` max_list l.
Proof. reflexivity. Qed.

Lemma max_list_bound (l : list nat) (D : nat) :
  max_list l ≤ D ↔ Forall (λ n, n ≤ D) l.
Proof.
  induction l as [|n l IH].
  - split; [constructor|]. intros _. apply Nat.le_0_l.
  - rewrite max_list_cons, Forall_cons, <- IH. lia.
Qed.

Lemma mapM_cons_Some {A B} (f : A → option B) (x : A) (l : list A)
    (y : B) (k : list B) :
  f x = Some y → mapM f l = Some k → mapM f (x :: l) = Some (y :: k).
Proof.
  intros Hx Hl. apply mapM_Some. constructor; [done|]. by apply mapM_Some.
Qed.

(** Rendering a list of nodes, each with some index. *)
Lemma render_list D (ns : list Node) (idxs : list string) :
  renders_all D → length idxs = length ns →
  Forall (λ n, depth n ≤ D) ns →
  ∃ outs, mapM id (zip_with (render D) ns idxs) = Some outs
        ∧ sum_list (count_outputs <$> outs) = sum_list (count_nodes <$> ns).
Proof.
  intros IH. revert idxs.
  induction ns as [|n ns IHns]; intros [|i idxs] Hlen Hd; simplify_eq/=.
  - by exists [].
  - apply Forall_cons in Hd as [Hn Hns].
    destruct (IH n i Hn) as (o & Ho & Hco).
    destruct (IHns idxs ltac:(done) Hns) as (os & Hos & Hcos).
    exists (o :: os). split; [by apply (mapM_cons_Some id)|].
    by rewrite !fmap_cons, !sum_list_cons, Hcos, Hco.
Qed.

Lemma render_children_count D (cs : list Node) (idx : string) :
  renders_all D → max_list (depth <$> cs) ≤ D →
  ∃ outs, mapM id (Array_map (λ c k, render D c (child_index idx k)) cs)
          = Some outs
        ∧ sum_list (count_outputs <$> outs) = sum_list (count_nodes <$> cs).
Proof.
  intros IH Hd.
  apply max_list_bound, Forall_fmap in Hd.
  destruct (render_list D cs (child_index idx <$> seq 0 (length cs)) IH)
    as (outs & Houts & Hc); [by rewrite length_fmap, length_seq|done|].
  exists outs. split; [|done]. rewrite <- Houts. f_equal.
  apply list_eq. intros i. unfold Array_map.
  rewrite list_lookup_imap, lookup_zip_with, list_lookup_fmap.
  destruct (cs !! i) as [c|] eqn:Hc'; [|done]. simpl.
  rewrite lookup_seq_lt by (by eapply lookup_lt_Some). done.
Qed.

Lemma render_row_count D (tr : RowElement Node) :
  renders_all D → max_list (depth <$> row_nodes tr) ≤ D →
  ∃ outs, mapM (λ re, render D (renderer_node re) (renderer_index re))
            (row_renderers tr) = Some outs
        ∧ sum_list (count_outputs <$> outs)
          = sum_list (count_nodes <$> row_nodes tr).
Proof.
  intros IH Hd.
  apply max_list_bound, Forall_fmap in Hd.
  destruct (render_list D (row_nodes tr) (row_indices tr) IH)
    as (outs & Houts & Hc);
    [by unfold row_indices, row_nodes; rewrite !length_fmap|done|].
  exists outs. split; [|done]. rewrite <- Houts.
  unfold row_nodes, row_indices.
  induction (row_renderers tr) as [|re res IHres]; [done|].
  simpl. by rewrite IHres.
Qed.

Lemma render_rows_count D (trs : list (RowElement Node)) :
  renders_all D →
  max_list ((λ tr, max_list (depth <$> row_nodes tr)) <$> trs) ≤ D →
  ∃ outss,
    mapM (λ tr, mapM (λ re, render D (renderer_node re) (renderer_index re))
                  (row_renderers tr)) trs = Some outss
    ∧ sum_list ((λ os, sum_list (count_outputs <$> os)) <$> outss)
      = sum_list ((λ tr, sum_list (count_nodes <$> row_nodes tr)) <$> trs).
Proof.
  intros IH. induction trs as [|tr trs IHtrs]; intros Hd.
  - by exists [].
  - rewrite fmap_cons, max_list_cons in Hd.
    destruct (render_row_count D tr IH) as (os & Hos & Hc); [lia|].
    destruct IHtrs as (oss & Hoss & Hcs); [lia|].
    exists (os :: oss). split; [by apply mapM_cons_Some|].
    by rewrite !fmap_cons, !sum_list_cons, Hcs, Hc.
Qed.

Lemma fmap_row_nodes {B} (g : list Node → B) (trs : list (RowElement Node)) :
  (λ tr, g (row_nodes tr)) <$> trs = g <$> (row_nodes <$> trs).
Proof. by rewrite <- list_fmap_compose. Qed.

Lemma renders_all_bound D : renders_all D.
Proof.
  induction D as [|D IH]; intros node idx Hd.
  { destruct node; simpl in Hd; lia. }
  rewrite render_S.
  destruct node as [c| |cs|cs|target cs|hs rs|k]; simpl in Hd;
    try (eexists; split; [reflexivity|done]).
  - destruct (render_children_count D cs idx IH) as (os & -> & Hc); [lia|].
    eexists. split; [reflexivity|]. simpl. by rewrite Hc.
  - destruct (render_children_count D cs idx IH) as (os & -> & Hc); [lia|].
    eexists. split; [reflexivity|]. simpl. by rewrite Hc.
  - destruct (render_children_count D cs idx IH) as (os & -> & Hc); [lia|].
    eexists. split; [reflexivity|]. simpl. by rewrite Hc.
  - cbv zeta.
    pose proof (header_group_nodes node_type (mkProps idx hs rs)) as Hhg.
    pose proof (body_group_nodes node_type (mkProps idx hs rs)) as Hbg.
    destruct (render_rows_count D
                (header_group (Table node_type (mkProps idx hs rs))) IH)
      as (hg & Hhgo & Hhc).
    { rewrite (fmap_row_nodes (λ l, max_list (depth <$> l))), Hhg.
      rewrite list_fmap_singleton, max_list_cons. cbn [header max_list_with].
      lia. }
    destruct (render_rows_count D
                (body_group (Table node_type (mkProps idx hs rs))) IH)
      as (bg & Hbgo & Hbc).
    { rewrite (fmap_row_nodes (λ l, max_list (depth <$> l))), Hbg.
      rewrite <- list_fmap_compose. unfold compose. cbn [rows]. lia. }
    rewrite Hhgo, Hbgo. eexists. split; [reflexivity|]. simpl.
    rewrite Hhc, Hbc.
    rewrite !(fmap_row_nodes (λ l, sum_list (count_nodes <$> l))), Hhg, Hbg.
    rewrite <- list_fmap_compose, list_fmap_singleton, sum_list_cons.
    unfold compose. cbn [header rows sum_list_with count_nodes count_outputs].
    lia.
Qed.

End RenderTheory.

(** C7. A node tree of depth at most [D] is rendered within [D] nested
    calls, and the output tree has exactly one output per node of the input
    tree; the table component builds exactly one [Renderer] element per
    header node and per body cell, in one pass over header and rows. *)
Theorem render_one_output_per_node :
  (∀ (D : nat) (node : Markup.Node) (idx : string),
     Markup.depth node ≤ D →
     ∃ out, Markup.render D node idx = Some out
          ∧ Markup.count_outputs out = Markup.count_nodes node)
  ∧ (∀ props : Props Markup.Node,
       renderer_node <$> all_renderers (Table Markup.node_type props)
       = header props ++ mjoin (cells <$> rows props)
       ∧ length (all_renderers (Table Markup.node_type props))
         = length (header props) + sum_list ((length ∘ cells) <$> rows props)).
Proof.
  split.
  - intros D. apply renders_all_bound.
  - intros props. split.
    + apply Table_renderer_nodes.
    + apply Table_renderer_count.
Qed.

(** Witness for C7: the sample table, of depth 3, rendered with bound 3. *)
Lemma render_one_output_per_node_witness :
  Markup.depth Markup.table ≤ 3
  ∧ ∃ out, Markup.render 3 Markup.table "0" = Some out
         ∧ Markup.count_outputs out = Markup.count_nodes Markup.table.
Proof.
  assert (Hd : Markup.depth Markup.table ≤ 3) by (vm_compute; lia).
  split; [exact Hd|].
  exact (proj1 render_one_output_per_node 3 Markup.table "0" Hd).
Defined.

(** The sample table has nine nodes and renders to nine outputs; a bound
    below its depth is not enough. *)
Example render_table_count :
  Markup.count_outputs <$> Markup.render 3 Markup.table "0" = Some 9
  ∧ Markup.count_nodes Markup.table = 9
  ∧ Markup.depth Markup.table = 3
  ∧ Markup.render 2 Markup.table "0" = None.
Proof. vm_compute. done. Qed.

(** ** Keys and positions *)

Section KeysAndPositions.

Context {Node : Type} (node_type : Node → string).
Implicit Types (props : Props Node) (h r n : Node) (row : TableNode_Row Node).

Lemma Array_map_app {A B} (f : A → nat → B) (l1 l2 : list A) :
  Array_map f (l1 ++ l2)
  = Array_map f l1 ++ Array_map (λ x i, f x (length l1 + i)) l2.
Proof. unfold Array_map. by rewrite imap_app. Qed.

Lemma Array_map_fmap {A B C} (f : B → nat → C) (g : A → B) (l : list A) :
  Array_map f (g <$> l) = Array_map (λ x i, f (g x) i) l.
Proof. unfold Array_map. apply (imap_fmap (λ i x, f x i)). Qed.

Lemma body_group_lookup props (i : nat) (tr : RowElement Node) :
  body_group (Table node_type props) !! i = Some tr ↔
  ∃ row, rows props !! i = Some row ∧ tr = body_row node_type row i.
Proof. by rewrite body_group_Table, Array_map_lookup, fmap_Some. Qed.

Lemma body_row_renderer_key row (i j : nat) (k : Key) :
  row_renderer_keys (body_row node_type row i) !! j = Some k ↔
  ∃ n, cells row !! j = Some n
     ∧ k = Some (node_type n +:+ "-" +:+ js_String i +:+ "-" +:+ js_String j).
Proof.
  unfold row_renderer_keys, row_renderers. simpl.
  by rewrite !fmap_Array_map, Array_map_lookup, fmap_Some.
Qed.

(** The keys of the body rows are the numerals of their positions: they are
    pairwise distinct, as React asks of siblings; the row of the header is
    an only child and has no key. *)
Theorem Table_body_row_keys props :
  tr_key <$> body_group (Table node_type props)
    = (Some ∘ js_String) <$> seq 0 (length (rows props))
  ∧ NoDup (tr_key <$> body_group (Table node_type props))
  ∧ tr_key <$> header_group (Table node_type props) = [None].
Proof.
  assert (Hk : tr_key <$> body_group (Table node_type props)
               = (Some ∘ js_String) <$> seq 0 (length (rows props))).
  { rewrite body_group_Table, fmap_Array_map.
    apply (Array_map_positions (Some ∘ js_String)). }
  split_and!; [done| |done].
  rewrite Hk. apply NoDup_fmap_2_strong; [|apply NoDup_seq].
  intros i j _ _ [=]. by apply js_String_inj.
Qed.

(** The key of a body cell's [Renderer] tells the cell's position in the
    whole body: two cells with the same key are in the same row and the
    same column, whatever their type tags are. *)
Theorem Table_body_renderer_key_position props (r c r' c' : nat) (k : Key) :
  body_renderer_key (Table node_type props) r c = Some k →
  body_renderer_key (Table node_type props) r' c' = Some k →
  r = r' ∧ c = c'.
Proof.
  unfold body_renderer_key. rewrite !bind_Some.
  intros (tr & Htr & Hk) (tr' & Htr' & Hk').
  apply body_group_lookup in Htr as (row & _ & ->).
  apply body_group_lookup in Htr' as (row' & _ & ->).
  apply body_row_renderer_key in Hk as (n & _ & ->).
  apply body_row_renderer_key in Hk' as (n' & _ & [=Heq]).
  apply body_key_positions in Heq as (_ & -> & ->). done.
Qed.

Lemma body_renderer_key_node props (r c : nat) :
  body_renderer_key (Table node_type props) r c
  = (λ n, Some (node_type n +:+ "-" +:+ js_String r +:+ "-" +:+ js_String c))
      <$> body_node props r c.
Proof.
  unfold body_renderer_key, body_node.
  rewrite body_group_Table, Array_map_lookup.
  destruct (rows props !! r) as [row|]; [|done]. simpl.
  unfold row_renderer_keys, row_renderers. simpl.
  by rewrite !fmap_Array_map, Array_map_lookup.
Qed.

(** Between two renders, of any two tables, the [Renderer] at a given body
    position keeps its key exactly when the cells found there have the same
    type tag, or when there is no cell there in either table: the content
    of a cell never shows in its key. *)
Theorem Table_body_renderer_key_stable props props' (r c : nat) :
  body_renderer_key (Table node_type props) r c
  = body_renderer_key (Table node_type props') r c
  ↔ node_type <$> body_node props r c = node_type <$> body_node props' r c.
Proof.
  rewrite !body_renderer_key_node.
  destruct (body_node props r c) as [n|], (body_node props' r c) as [n'|];
    simpl; try (split; [discriminate|discriminate]); [|done].
  split.
  - intros [=Heq]. by apply body_key_positions in Heq as (-> & _).
  - intros [=->]. done.
Qed.

(** Appending header nodes, rows, or cells to a row leaves the elements
    built for the existing ones as they were, keys and indices included;
    the new elements continue the numbering. *)
Theorem Table_append_stable (idx : string) (hs hs' : list Node)
    (rs rs' : list (TableNode_Row Node)) (cs cs' : list Node) (i : nat) :
  header_group (Table node_type (mkProps idx (hs ++ hs') rs))
    = [header_tr_element
         (Array_map (header_cell node_type) hs
          ++ Array_map (λ h j, header_cell node_type h (length hs + j)) hs')]
  ∧ body_group (Table node_type (mkProps idx hs (rs ++ rs')))
    = body_group (Table node_type (mkProps idx hs rs))
      ++ Array_map (λ row j, body_row node_type row (length rs + j)) rs'
  ∧ tr_children (body_row node_type (mkRow (cs ++ cs')) i)
    = tr_children (body_row node_type (mkRow cs) i)
      ++ Array_map (λ r j, body_cell node_type i r (length cs + j)) cs'.
Proof.
  split_and!.
  - rewrite header_group_Table. simpl. by rewrite Array_map_app.
  - rewrite !body_group_Table. simpl. by rewrite Array_map_app.
  - simpl. by rewrite Array_map_app.
Qed.

(** Keys are positions, not identities: after a row is put in front, the
    element of every former row wraps the same nodes with the same indices
    but carries another key, the numeral of its new position. *)
Theorem Table_prepend_row_shifts_keys (idx : string) (hs : list Node)
    (row0 : TableNode_Row Node) (rs : list (TableNode_Row Node))
    (r : nat) (tr tr' : RowElement Node) :
  body_group (Table node_type (mkProps idx hs rs)) !! r = Some tr →
  body_group (Table node_type (mkProps idx hs (row0 :: rs))) !! S r = Some tr' →
  tr_key tr = Some (js_String r)
  ∧ tr_key tr' = Some (js_String (S r))
  ∧ tr_key tr' ≠ tr_key tr
  ∧ row_nodes tr' = row_nodes tr
  ∧ row_indices tr' = row_indices tr.
Proof.
  intros Htr Htr'.
  apply body_group_lookup in Htr as (row & Hrow & ->).
  apply body_group_lookup in Htr' as (row' & Hrow' & ->).
  simpl in Hrow, Hrow'. rewrite Hrow in Hrow'. injection Hrow' as <-.
  split_and!; [done|done| | |].
  - simpl. intros [=Heq]. apply js_String_inj in Heq. lia.
  - by rewrite !row_nodes_body.
  - by rewrite !row_indices_body.
Qed.

End KeysAndPositions.

Lemma Table_body_renderer_key_position_witness :
  body_renderer_key (Table Sample.node_type Sample.ragged) 1 3 = Some (Some "TEXT-1-3")
  ∧ (1 = 1 ∧ 3 = 3).
Proof.
  split; [reflexivity|].
  apply (Table_body_renderer_key_position Sample.node_type Sample.ragged
           1 3 1 3 (Some "TEXT-1-3")); reflexivity.
Defined.

Lemma Table_prepend_row_shifts_keys_witness :
  ∃ tr tr',
    body_group (Table Sample.node_type Sample.twins) !! 1 = Some tr
    ∧ body_group (Table Sample.node_type
        (mkProps "7" [Sample.text "v"]
           (mkRow [Sample.text "w"] :: rows Sample.twins))) !! 2 = Some tr'
    ∧ tr_key tr = Some "1" ∧ tr_key tr' = Some "2"
    ∧ tr_key tr' ≠ tr_key tr
    ∧ row_nodes tr' = row_nodes tr
    ∧ row_indices tr' = row_indices tr.
Proof.
  eexists _, _. split; [reflexivity|]. split; [reflexivity|].
  apply (Table_prepend_row_shifts_keys Sample.node_type "7" [Sample.text "v"]
           (mkRow [Sample.text "w"]) (rows Sample.twins) 1); reflexivity.
Defined.

(** ** What the component reads of a node *)

Section NodesAreOpaque.

Context {A B : Type}.

Lemma Table_ext (nt nt' : A → string) (props : Props A) :
  (∀ n, nt n = nt' n) → Table nt props = Table nt' props.
Proof.
  intros Hnt. unfold Table. f_equal.
  - apply Array_map_ext. intros i h _. unfold header_cell. by rewrite Hnt.
  - apply Array_map_ext. intros i row _. unfold body_row. f_equal.
    apply Array_map_ext. intros j r _. unfold body_cell. by rewrite Hnt.
Qed.

(** The component looks at the type tag of a node and at nothing else:
    renaming the nodes by a function that keeps the tags renames the [node]
    props of the rendered table and changes nothing else, no key, no index
    and no position. *)
Theorem Table_natural (g : A → B) (ntA : A → string) (ntB : B → string)
    (props : Props A) :
  (∀ n, ntB (g n) = ntA n) →
  Table ntB (Props_map g props) = TableElement_map g (Table ntA props).
Proof.
  intros Hg. unfold Table, Props_map, TableElement_map, GroupElement_map.
  cbn [header rows table_element table_thead table_tbody group_children
       group_tag group_className table_className].
  unfold table_element. f_equal; f_equal.
  - rewrite list_fmap_singleton. f_equal. unfold RowElement_map, header_tr_element.
    cbn [tr_key tr_className tr_children]. f_equal.
    rewrite Array_map_fmap, fmap_Array_map.
    apply Array_map_ext. intros i h _.
    unfold header_cell, th_element, CellElement_map, RendererElement_map.
    simpl. by rewrite Hg.
  - rewrite Array_map_fmap, fmap_Array_map.
    apply Array_map_ext. intros i row _.
    unfold body_row, RowElement_map, tr_element.
    cbn [tr_key tr_className tr_children cells]. f_equal.
    rewrite Array_map_fmap, fmap_Array_map.
    apply Array_map_ext. intros j r _.
    unfold body_cell, td_element, CellElement_map, RendererElement_map.
    simpl. by rewrite Hg.
Qed.

End NodesAreOpaque.

Lemma Table_natural_witness :
  Table Sample.node_type (Props_map Sample.erase Sample.ragged)
  = TableElement_map Sample.erase (Table Sample.node_type Sample.ragged).
Proof.
  apply (Table_natural Sample.erase Sample.node_type Sample.node_type
           Sample.ragged).
  intros n. reflexivity.
Defined.

(** ** The component on a well-typed store *)

Section WellTypedStore.

Implicit Types (σ : Store.heap) (l arr : Store.loc).

(** On a store that holds a table of the declared types, ragged or not, the
    component raises no [TypeError]: it returns the element tree of the
    component on values, and the [node] props of that tree are the very
    references found in the header array and in the cell arrays, in order:
    nodes are shared with the document, not copied. *)
Theorem Store_Table_well_typed σ (props : Store.Props) (vprops : Props Store.loc) :
  is_props σ props vprops →
  ∃ t, Store.Table props σ = (Some t, σ)
     ∧ t = Table (Store.type_at σ) vprops
     ∧ renderer_node <$> all_renderers t
       = header vprops ++ mjoin (cells <$> rows vprops).
Proof.
  intros Hp. eexists. split; [by apply Table_refines|].
  split; [done|]. apply Table_renderer_nodes.
Qed.

(** Overwriting the fields of a node other than its type. *)
Lemma type_at_set_payload σ l (ty pl pl' : string) (x : Store.loc) :
  σ !! l = Some (Store.ObjNode ty pl) →
  Store.type_at (<[l:=Store.ObjNode ty pl']> σ) x = Store.type_at σ x.
Proof.
  intros Hl. unfold Store.type_at.
  destruct (decide (l = x)) as [<-|Hne].
  - by rewrite lookup_insert_eq, Hl.
  - by rewrite lookup_insert_ne.
Qed.

Lemma is_node_set_payload σ l (ty pl' : string) (x : Store.loc) :
  Store.is_node σ x → Store.is_node (<[l:=Store.ObjNode ty pl']> σ) x.
Proof.
  intros (tx & px & Hx). unfold Store.is_node.
  destruct (decide (l = x)) as [<-|Hne].
  - rewrite lookup_insert_eq. eauto.
  - rewrite lookup_insert_ne by done. eauto.
Qed.

Lemma lookup_set_payload σ l (ty pl pl' : string) (x : Store.loc)
    (o : Store.object) :
  σ !! l = Some (Store.ObjNode ty pl) →
  (∀ tx px, o ≠ Store.ObjNode tx px) →
  σ !! x = Some o →
  <[l:=Store.ObjNode ty pl']> σ !! x = Some o.
Proof.
  intros Hl Ho Hx. rewrite lookup_insert_ne; [done|].
  intros <-. rewrite Hl in Hx. injection Hx as <-. by eapply Ho.
Qed.

Lemma is_node_array_set_payload σ l (ty pl pl' : string) arr
    (ns : list Store.loc) :
  σ !! l = Some (Store.ObjNode ty pl) →
  Store.is_node_array σ arr ns →
  Store.is_node_array (<[l:=Store.ObjNode ty pl']> σ) arr ns.
Proof.
  intros Hl [Harr Hns]. split.
  - by eapply lookup_set_payload.
  - eapply Forall_impl; [exact Hns|]. intros x. apply is_node_set_payload.
Qed.

Lemma is_props_set_payload σ l (ty pl pl' : string) (props : Store.Props)
    (vprops : Props Store.loc) :
  σ !! l = Some (Store.ObjNode ty pl) →
  is_props σ props vprops →
  is_props (<[l:=Store.ObjNode ty pl']> σ) props vprops.
Proof.
  intros Hl (Hidx & Hh & rls & Hrows & Hrls).
  split; [done|]. split; [by eapply is_node_array_set_payload|].
  exists rls. split; [by eapply lookup_set_payload|].
  eapply Forall2_impl; [exact Hrls|].
  intros x row (cs & Hx & Hcs). exists cs. split.
  - by eapply lookup_set_payload.
  - by eapply is_node_array_set_payload.
Qed.

(** Of a node the component reads the type only: after the other fields of
    any node of the store have been overwritten, the component returns the
    same element tree, with the same keys, indices and node references. *)
Theorem Store_Table_ignores_payload σ (props : Store.Props)
    (vprops : Props Store.loc) l (ty pl pl' : string) :
  is_props σ props vprops →
  σ !! l = Some (Store.ObjNode ty pl) →
  (Store.Table props (<[l:=Store.ObjNode ty pl']> σ)).1
  = (Store.Table props σ).1
  ∧ is_Some (Store.Table props σ).1.
Proof.
  intros Hp Hl.
  rewrite (Table_refines _ _ _ (is_props_set_payload _ _ _ _ pl' _ _ Hl Hp)).
  rewrite (Table_refines _ _ _ Hp). simpl. split; [|by eexists].
  f_equal. apply Table_ext. intros n. by eapply type_at_set_payload.
Qed.

End WellTypedStore.

Lemma Store_Table_well_typed_witness :
  ∃ t, Store.Table StoreSample.props StoreSample.store0
       = (Some t, StoreSample.store0)
     ∧ t = Table (Store.type_at StoreSample.store0) StoreSample.vprops
     ∧ renderer_node <$> all_renderers t
       = header StoreSample.vprops ++ mjoin (cells <$> rows StoreSample.vprops).
Proof.
  apply (Store_Table_well_typed StoreSample.store0 StoreSample.props
           StoreSample.vprops).
  split; [reflexivity|]. split.
  - split; [reflexivity|]. repeat constructor. by exists "TEXT", "v".
  - exists [20%positive; 21%positive]. split; [reflexivity|].
    repeat constructor.
    + exists 30%positive. split; [reflexivity|]. split; [reflexivity|].
      repeat constructor. by exists "TEXT", "v".
    + exists 31%positive. split; [reflexivity|]. split; [reflexivity|].
      repeat constructor. by exists "TEXT", "v".
Defined.

Lemma Store_Table_ignores_payload_witness :
  (Store.Table StoreSample.props
     (<[2%positive:=Store.ObjNode "TEXT" "edited"]> StoreSample.store0)).1
  = (Store.Table StoreSample.props StoreSample.store0).1
  ∧ is_Some (Store.Table StoreSample.props StoreSample.store0).1.
Proof.
  apply (Store_Table_ignores_payload StoreSample.store0 StoreSample.props
           StoreSample.vprops 2%positive "TEXT" "v" "edited").
  - split; [reflexivity|]. split.
    + split; [reflexivity|]. repeat constructor. by exists "TEXT", "v".
    + exists [20%positive; 21%positive]. split; [reflexivity|].
      repeat constructor.
      * exists 30%positive. split; [reflexivity|]. split; [reflexivity|].
        repeat constructor. by exists "TEXT", "v".
      * exists 31%positive. split; [reflexivity|]. split; [reflexivity|].
        repeat constructor. by exists "TEXT", "v".
  - reflexivity.
Defined.
